(** * Local regression on synthetic fashion-trend data

    A shallow embedding of [fashion_local_regression.py]: the data
    generator, the LOWESS smoother wrapper, the presenter and the pipeline
    entry point, together with the properties of the specification that can
    be stated over them.

    Numbers.  A Python float is a double, hence a rational number; the
    embedding takes [Q] for it and idealises every rounded operation
    ([+], [*], [/]) as the exact one.  Equality of numbers is therefore
    [Qeq] ([==]) wherever a value has been computed. *)

From Stdlib Require Import String ZArith QArith Qround Qabs List Lia Lqa
  Permutation Sorted Morphisms.
Import ListNotations.
Open Scope Q_scope.

(** ** Arrays and outcomes *)

(** A one-dimensional [np.array] of floats. *)
Definition array := list Q.

(** An [N x 2] array, one row per point: column 0 is [fst], column 1 is
    [snd]. *)
Definition array2 := list (Q * Q).

(** The two kinds of failure that the specification distinguishes. *)
Inductive error : Set :=
| ParameterError
| ComputationError.

(** A Python call either returns a value or raises. *)
Inductive outcome (A : Type) : Type :=
| Ok (a : A)
| Raise (e : error).
Arguments Ok {A} a.
Arguments Raise {A} e.

Definition bind {A B : Type} (m : outcome A) (k : A -> outcome B) : outcome B :=
  match m with
  | Ok a => k a
  | Raise e => Raise e
  end.

Notation "x <- m ;; k" := (bind m (fun x => k))
  (at level 61, m at next level, right associativity).

(** ** The numpy primitives the script uses *)

Module Numpy.

(** [c * a] with a scalar on the left. *)
Definition smul (c : Q) (a : array) : array := map (Qmult c) a.

(** [c + a] with a scalar on the left. *)
Definition sadd (c : Q) (a : array) : array := map (Qplus c) a.

(** [a / c] with a scalar on the right. *)
Definition sdiv (a : array) (c : Q) : array := map (fun v => v / c) a.

(** [a + b], element by element, for two arrays of one shape. *)
Fixpoint vadd (a b : array) : array :=
  match a, b with
  | u :: a', v :: b' => (u + v) :: vadd a' b'
  | _, _ => []
  end.

(** Modelled from the spec: [np.linspace] is library code, not part of the
    repository; section 4.1 describes its result as [num] evenly spaced
    values from [start] to [stop] inclusive, that is
    [start + i * (stop - start) / (num - 1)] for [i = 0 .. num - 1]. *)
Definition linspace (start stop : Q) (num : nat) : array :=
  let step := (stop - start) / inject_Z (Z.of_nat (num - 1)) in
  map (fun i => start + inject_Z (Z.of_nat i) * step) (seq 0 num).

End Numpy.

(** ** The script *)

(** What [plot_results] hands to matplotlib before [plt.show()]. *)
Record figure : Type := mkFigure {
  figsize : Q * Q;
  scatter_x : array;
  scatter_y : array;
  scatter_label : string;
  scatter_color : string;
  scatter_alpha : Q;
  line_x : array;
  line_y : array;
  line_label : string;
  line_color : string;
  line_width : Q;
  xlabel : string;
  ylabel : string;
  title : string;
  legend : bool;
  grid : bool
}.

(** Python's default value of [frac] in [perform_lowess]. *)
Definition default_frac : Q := 0.2.

(** The part of numpy that the script takes as given. *)
Class NumpyLib : Type := {
  (** The process-wide generator behind [np.random]. *)
  rng_state : Type;
  (** [np.random.seed(s)] replaces the process-wide state by the one that
      [s] determines. *)
  seed : Z -> rng_state;
  (** One standard-normal deviate drawn from the process-wide generator,
      and the state it leaves. *)
  gauss : rng_state -> Q * rng_state;
  (** [np.sin] on a double, and the double [np.pi]. *)
  np_sin : Q -> Q;
  np_pi : Q
}.

(** [statsmodels.nonparametric.smoothers_lowess.lowess(endog, exog, frac)],
    every other keyword at the library's default. *)
Class SmoothingLib : Type := {
  lowess : array -> array -> Q -> outcome array2
}.

Section Script.

Context {np : NumpyLib} {sm : SmoothingLib}.

(** Modelled from the spec: [np.random.normal(loc, scale, size)] is library
    code, not part of the repository; section 4.1 has its result as [size]
    independent standard-Gaussian draws scaled by [scale], here on top of
    the location [loc] that the call leaves at its default 0. *)
Fixpoint normal (loc scale : Q) (size : nat) (s : rng_state)
  : array * rng_state :=
  match size with
  | O => ([], s)
  | S n =>
      let (g, s1) := gauss s in
      let (rest, s2) := normal loc scale n s1 in
      ((loc + scale * g) :: rest, s2)
  end.

(** [generate_data()]: the state of [np.random] is threaded explicitly;
    the incoming one is overwritten by [np.random.seed(42)]. *)
Definition generate_data (s : rng_state) : (array * array) * rng_state :=
  let s1 := seed 42 in
  let x := Numpy.linspace 0 24 100 in
  let (noise, s2) := normal 0 1 (length x) s1 in
  let y :=
    Numpy.vadd
      (Numpy.sadd 10
         (Numpy.smul 2
            (map np_sin (Numpy.sdiv (Numpy.smul (2 * np_pi) x) 12))))
      noise in
  ((x, y), s2).

(** [perform_lowess(x, y, frac=0.2)]: [None] is the call that omits
    [frac]. *)
Definition perform_lowess (x y : array) (frac : option Q) : outcome array2 :=
  let frac :=
    match frac with
    | Some f => f
    | None => default_frac
    end in
  lowess y x frac.

(** [plot_results(x, y, smoothed)], as the figure it shows. *)
Definition plot_results (x y : array) (smoothed : array2) : figure :=
  {| figsize := (10, 6);
     scatter_x := x;
     scatter_y := y;
     scatter_label := "Original Data";
     scatter_color := "blue";
     scatter_alpha := 0.5;
     line_x := map fst smoothed;
     line_y := map snd smoothed;
     line_label := "Lowess Smoothed";
     line_color := "red";
     line_width := 2;
     xlabel := "Month";
     ylabel := "Fashion Trend Indicator";
     title := "Local Regression (LOWESS) on Fashion Trend Data";
     legend := true;
     grid := true |}.

(** What a run can touch: the generator, the console and the display. *)
Record world : Type := mkWorld {
  rng : rng_state;
  stdout : list string;
  shown : list figure
}.

Definition print (line : string) (w : world) : world :=
  {| rng := rng w; stdout := stdout w ++ [line]; shown := shown w |}.

Definition narration : list string :=
  [ String (Ascii.ascii_of_nat 10) "Explanation:";
    "The blue points represent the original synthetic fashion trend data (with noise and seasonal effects).";
    "The red line is the LOWESS smoothed curve, which reveals the underlying trend by smoothing the data,";
    "making it easier to interpret the overall trend and patterns in fashion over time." ]%string.

(** [main()]: the world it leaves and whether it returned or raised. *)
Definition main (w : world) : world * outcome unit :=
  let w1 := fold_left (fun w l => print l w) narration w in
  let '((x, y), s) := generate_data (rng w1) in
  let w2 := {| rng := s; stdout := stdout w1; shown := shown w1 |} in
  match perform_lowess x y (Some 0.2) with
  | Ok smoothed =>
      ({| rng := rng w2; stdout := stdout w2;
          shown := shown w2 ++ [plot_results x y smoothed] |}, Ok tt)
  | Raise e => (w2, Raise e)
  end.

End Script.

(** ** The smoothing routine

    The script imports [lowess] from statsmodels; the routine itself is not
    in the repository.  What follows is the routine as sections 4.2 and 7
    of the specification design it, over exact rationals. *)

Module Statsmodels.

Definition Qltb (a b : Q) : bool := negb (Qle_bool b a).

Definition sumQ {A : Type} (f : A -> Q) (l : list A) : Q :=
  fold_right (fun a s => f a + s) 0 l.

(** Stable insertion sort on a rational key: of two elements with the same
    key, the one that comes first in the input stays first. *)
Fixpoint insert_on {A : Type} (key : A -> Q) (a : A) (l : list A) : list A :=
  match l with
  | [] => [a]
  | b :: l' =>
      if Qle_bool (key a) (key b) then a :: l else b :: insert_on key a l'
  end.

Fixpoint sort_on {A : Type} (key : A -> Q) (l : list A) : list A :=
  match l with
  | [] => []
  | a :: l' => insert_on key a (sort_on key l')
  end.

Fixpoint traverse {A B : Type} (f : A -> outcome B) (l : list A)
  : outcome (list B) :=
  match l with
  | [] => Ok []
  | a :: l' =>
      b <- f a ;;
      bs <- traverse f l' ;;
      Ok (b :: bs)
  end.

(** Distance along x from the evaluation point [x0] to a sample point. *)
Definition dist (x0 : Q) (p : Q * Q) : Q := Qabs (fst p - x0).

(** Modelled from the spec: step 1 of section 4.2, the [k] points nearest
    to [x0] by distance along x. *)
Definition neighborhood (k : nat) (x0 : Q) (pts : array2) : array2 :=
  firstn k (sort_on (dist x0) pts).

(** Distance from [x0] to the farthest point of a neighborhood. *)
Definition farthest (x0 : Q) (nb : array2) : Q :=
  fold_right (fun p m => if Qle_bool m (dist x0 p) then dist x0 p else m) 0 nb.

(** Modelled from the spec: step 2 of section 4.2, the tri-cube kernel,
    [(1 - d^3)^3] for a normalised distance [d] in [0, 1] and 0
    elsewhere. *)
Definition tricube (d : Q) : Q :=
  if Qle_bool 0 d && Qle_bool d 1
  then (1 - d * d * d) * (1 - d * d * d) * (1 - d * d * d)
  else 0.

(** Modelled from the spec: step 2 of section 4.2, each neighbor with its
    weight, the kernel of its distance divided by the distance of the
    farthest neighbor. *)
Definition weighted (x0 : Q) (nb : array2) : list (Q * (Q * Q)) :=
  let h := farthest x0 nb in
  map (fun p => (tricube (dist x0 p / h), p)) nb.

Definition px (wp : Q * (Q * Q)) : Q := fst (snd wp).
Definition py (wp : Q * (Q * Q)) : Q := snd (snd wp).

(** Determinant of the weighted normal equations. *)
Definition wls_det (wps : list (Q * (Q * Q))) : Q :=
  sumQ fst wps * sumQ (fun wp => fst wp * px wp * px wp) wps
  - sumQ (fun wp => fst wp * px wp) wps * sumQ (fun wp => fst wp * px wp) wps.

(** Modelled from the spec: step 3 of section 4.2, the weighted
    least-squares line of y on x, as (intercept, slope), from the normal
    equations; there is none when they are singular. *)
Definition wls_fit (wps : list (Q * (Q * Q))) : option (Q * Q) :=
  let sw := sumQ fst wps in
  let swx := sumQ (fun wp => fst wp * px wp) wps in
  let swy := sumQ (fun wp => fst wp * py wp) wps in
  let swxy := sumQ (fun wp => fst wp * px wp * py wp) wps in
  if Qeq_bool (wls_det wps) 0 then None
  else
    let slope := (sw * swxy - swx * swy) / wls_det wps in
    let intercept := (swy - slope * swx) / sw in
    Some (intercept, slope).

(** Modelled from the spec: steps 1 to 4 of section 4.2 at one evaluation
    point, the fitted line evaluated at [x0]; a fit without a unique line
    is the computation error of section 7. *)
Definition local_estimate (k : nat) (pts : array2) (x0 : Q) : outcome Q :=
  match wls_fit (weighted x0 (neighborhood k x0 pts)) with
  | Some (intercept, slope) => Ok (intercept + slope * x0)
  | None => Raise ComputationError
  end.

(** Modelled from the spec: the smoother of section 4.2 on a sample given
    as pairs.  [frac] outside (0, 1] and [frac * N < 2] are the parameter
    errors of section 7; then [k = ceil (frac * N)] and one estimate per
    point, in ascending order of x. *)
Definition smooth (pts : array2) (frac : Q) : outcome array2 :=
  let n := inject_Z (Z.of_nat (length pts)) in
  if negb (Qltb 0 frac && Qle_bool frac 1) then Raise ParameterError
  else if Qltb (frac * n) 2 then Raise ParameterError
  else
    let k := Z.to_nat (Qceiling (frac * n)) in
    let sorted := sort_on fst pts in
    traverse
      (fun p => yhat <- local_estimate k sorted (fst p) ;; Ok (fst p, yhat))
      sorted.

(** Modelled from the spec: [lowess] is imported from statsmodels and is
    not part of the repository; section 4.2 gives its design, which
    [smooth] follows on the pairs [(exog, endog)].  One row is returned per
    input row (no deduplication, one of the two policies that section 9
    allows); among equidistant points the earlier in x order is taken
    first. *)
Definition lowess (endog exog : array) (frac : Q) : outcome array2 :=
  smooth (combine exog endog) frac.

End Statsmodels.

(** The smoothing library as the specification describes it. *)
Definition modelled : SmoothingLib := {| lowess := Statsmodels.lowess |}.

(** The Smoother of the specification: the script's wrapper around that
    smoothing routine. *)
Definition smoother (x y : array) (frac : option Q) : outcome array2 :=
  perform_lowess (sm := modelled) x y frac.

(** A stand-in generator for running the script on concrete states: a
    31-bit linear congruential generator whose deviate is the new state
    scaled to [-1/2, 1/2). *)
Module Lcg.

Definition state := Z.

Definition modulus : Z := 2147483648.

Definition seed (s : Z) : state := (s mod modulus)%Z.

Definition next (s : state) : state :=
  ((1103515245 * s + 12345) mod modulus)%Z.

Definition gauss (s : state) : Q * state :=
  let s' := next s in
  (inject_Z s' / inject_Z modulus - 1 / 2, s').

(** The stand-in generator with the identity for [np.sin] and 3 for
    [np.pi]. *)
Definition lib : NumpyLib :=
  Build_NumpyLib state seed gauss (fun q => q) 3.

End Lcg.

(** The raw deviates behind [normal]: [n] successive results of [gauss]. *)
Fixpoint deviates {np : NumpyLib} (n : nat) (s : rng_state) : list Q :=
  match n with
  | O => []
  | S n' => fst (gauss s) :: deviates n' (snd (gauss s))
  end.

(** The claim that a call of the generator leaves the process-wide state of
    [np.random] as it found it. *)
Definition leaves_rng_unchanged : Prop :=
  forall (np : NumpyLib) (s : rng_state), snd (generate_data s) = s.

(** All rows of a curve lie on the line [a + b * x], up to [tol]. *)
Definition on_line (tol a b : Q) (curve : array2) : Prop :=
  Forall (fun p => Qabs (snd p - (a + b * fst p)) <= tol) curve.

(** No two entries of an array are the same number. *)
Definition distinct (x : array) : Prop :=
  ForallOrdPairs (fun u v => ~ u == v) x.

(** All rows of a curve lie exactly on the line [a + b * x]. *)
Definition lies_on (a b : Q) (curve : array2) : Prop :=
  Forall (fun p => snd p == a + b * fst p) curve.

(** Weighted points that lie on the line [a + b * x], and weighted points
    none of whose weights is negative. *)
Definition on_line_w (a b : Q) (wps : list (Q * (Q * Q))) : Prop :=
  Forall (fun wp => Statsmodels.py wp == a + b * Statsmodels.px wp) wps.

Definition nonneg_w (wps : list (Q * (Q * Q))) : Prop :=
  Forall (fun wp => 0 <= fst wp) wps.

(** The weighted sum of squared residuals of the line [a + b * x]. *)
Definition wsse (a b : Q) (wps : list (Q * (Q * Q))) : Q :=
  Statsmodels.sumQ
    (fun wp => fst wp * ((Statsmodels.py wp - (a + b * Statsmodels.px wp))
                         * (Statsmodels.py wp - (a + b * Statsmodels.px wp))))
    wps.

(** The orders that a key induces on the elements it is taken from. *)
Definition key_le {A : Type} (key : A -> Q) (u v : A) : Prop := key u <= key v.
Definition key_lt {A : Type} (key : A -> Q) (u v : A) : Prop := key u < key v.

(** Stand-ins for running the script on concrete worlds: a smoothing
    routine that rejects every call, one that returns its inputs as rows
    [(exog, endog)], and the stand-in generator with a [np.sin] that is 0
    everywhere. *)
Module Standin.

Definition rejecting : SmoothingLib :=
  {| lowess := fun _ _ _ => Raise ParameterError |}.

Definition echoing : SmoothingLib :=
  {| lowess := fun endog exog _ => Ok (combine exog endog) |}.

Definition flat : NumpyLib :=
  Build_NumpyLib Lcg.state Lcg.seed Lcg.gauss (fun _ => 0) 3.

(** A fresh process: the generator in some state, nothing printed, nothing
    shown. *)
Definition fresh : world (np := Lcg.lib) := @mkWorld Lcg.lib 7%Z [] [].

End Standin.

(** * Properties *)

(** ** The pipeline *)

Section ScriptFacts.

Context {np : NumpyLib} {sm : SmoothingLib}.

Lemma fold_print (ls : list string) (w : world) :
  fold_left (fun w l => print l w) ls w =
  {| rng := rng w; stdout := (stdout w ++ ls)%list; shown := shown w |}.
Proof.
  revert w; induction ls as [|l ls IH]; intros [r o f]; cbn.
  - now rewrite app_nil_r.
  - rewrite IH; cbn. now rewrite <- app_assoc.
Qed.

(** C10.  Whatever the smoothing routine is, the entry point hands it the
    generated sample with bandwidth fraction 0.2 (= 1/5), which is also
    the value [perform_lowess] takes when [frac] is omitted: a run prints
    the narration, draws the sample, and then shows the figure built from
    [lowess y x 0.2] or raises what that call raises. *)
Theorem main_smooths_with_frac_02 (w : world) :
  let x := fst (fst (generate_data (rng w))) in
  let y := snd (fst (generate_data (rng w))) in
  let s := snd (generate_data (rng w)) in
  0.2 == 1 / 5 /\
  default_frac = 0.2 /\
  perform_lowess x y None = perform_lowess x y (Some 0.2) /\
  perform_lowess x y (Some 0.2) = lowess y x 0.2 /\
  main w =
    match lowess y x 0.2 with
    | Ok smoothed =>
        ({| rng := s; stdout := (stdout w ++ narration)%list;
            shown := (shown w ++ [plot_results x y smoothed])%list |}, Ok tt)
    | Raise e =>
        ({| rng := s; stdout := (stdout w ++ narration)%list;
            shown := shown w |}, Raise e)
    end.
Proof.
  cbv zeta.
  repeat split; try reflexivity.
  unfold main. rewrite fold_print. cbn [rng stdout shown].
  destruct (generate_data (rng w)) as [[x y] s].
  cbn [fst snd]. unfold perform_lowess.
  now destruct (lowess y x 0.2).
Qed.

Lemma linspace_length (a b : Q) (n : nat) :
  length (Numpy.linspace a b n) = n.
Proof.
  unfold Numpy.linspace. now rewrite length_map, length_seq.
Qed.

Lemma nth_map_in {A B : Type} (f : A -> B) (l : list A) (i : nat)
      (da : A) (db : B) :
  (i < length l)%nat -> nth i (map f l) db = f (nth i l da).
Proof.
  revert i; induction l as [|a l IH]; intros i Hi; cbn in *; [lia|].
  destruct i as [|i]; [reflexivity|]. apply IH; lia.
Qed.

Lemma linspace_nth (a b : Q) (n i : nat) :
  (i < n)%nat ->
  nth i (Numpy.linspace a b n) 0 =
  a + inject_Z (Z.of_nat i) * ((b - a) / inject_Z (Z.of_nat (n - 1))).
Proof.
  intros Hi. unfold Numpy.linspace.
  rewrite (nth_map_in _ _ _ O) by now rewrite length_seq.
  now rewrite seq_nth.
Qed.

Lemma normal_deviates (loc scale : Q) (n : nat) (s : rng_state) :
  fst (normal loc scale n s) =
  map (fun g => loc + scale * g) (deviates n s).
Proof.
  revert s; induction n as [|n IH]; intros s; cbn.
  - reflexivity.
  - specialize (IH (snd (gauss s))).
    destruct (gauss s) as [g s1]; cbn in *.
    destruct (normal loc scale n s1) as [rest s2]; cbn in *.
    now rewrite IH.
Qed.

Lemma deviates_length (n : nat) (s : rng_state) :
  length (deviates n s) = n.
Proof.
  revert s; induction n as [|n IH]; intros s; cbn; [reflexivity|].
  now rewrite IH.
Qed.

Lemma vadd_length (a b : array) :
  length a = length b -> length (Numpy.vadd a b) = length a.
Proof.
  revert b; induction a as [|u a IH]; intros [|v b] H; cbn in *;
    try discriminate; auto.
Qed.

Lemma vadd_nth (a b : array) (i : nat) :
  length a = length b -> (i < length a)%nat ->
  nth i (Numpy.vadd a b) 0 = nth i a 0 + nth i b 0.
Proof.
  revert b i; induction a as [|u a IH]; intros [|v b] i H Hi; cbn in *;
    try discriminate; try lia.
  destruct i as [|i]; [reflexivity|].
  apply IH; [congruence | lia].
Qed.

(** The sample that [generate_data] returns, taken apart. *)
Lemma generate_data_unfold (s : rng_state) :
  generate_data s =
  (Numpy.linspace 0 24 100,
   Numpy.vadd
     (Numpy.sadd 10
        (Numpy.smul 2
           (map np_sin
              (Numpy.sdiv (Numpy.smul (2 * np_pi) (Numpy.linspace 0 24 100)) 12))))
     (fst (normal 0 1 100 (seed 42))),
   snd (normal 0 1 100 (seed 42))).
Proof.
  unfold generate_data. rewrite linspace_length.
  now destruct (normal 0 1 100 (seed 42)).
Qed.

(** C6.  The generator returns 100 values of x, the i-th being
    [i * 24/99]: they start at 0, end at 24, are evenly spaced and
    strictly increasing; and 100 values of y, the i-th being
    [10 + 2 * sin (2 * pi * x_i / 12)] plus 1 times the i-th deviate that
    the generator seeded with 42 draws (on top of the location 0 that
    [normal] adds by default). *)
Theorem generate_data_sample (s : rng_state) :
  let x := fst (fst (generate_data s)) in
  let y := snd (fst (generate_data s)) in
  let g := deviates 100 (seed 42) in
  length x = 100%nat /\ length y = 100%nat /\ length g = 100%nat /\
  nth 0 x 0 == 0 /\ nth 99 x 0 == 24 /\
  (forall i, (i < 100)%nat ->
     nth i x 0 == inject_Z (Z.of_nat i) * (24 / 99)) /\
  (forall i, (i < 99)%nat ->
     nth (S i) x 0 - nth i x 0 == 24 / 99 /\ nth i x 0 < nth (S i) x 0) /\
  (forall i, (i < 100)%nat ->
     nth i y 0 =
     10 + 2 * np_sin (2 * np_pi * nth i x 0 / 12) + (0 + 1 * nth i g 0)).
Proof.
  cbv zeta. rewrite generate_data_unfold. cbn [fst snd].
  assert (Hx : forall i, (i < 100)%nat ->
            nth i (Numpy.linspace 0 24 100) 0 ==
            inject_Z (Z.of_nat i) * (24 / 99)).
  { intros i Hi. rewrite linspace_nth by assumption.
    change (inject_Z (Z.of_nat (100 - 1))) with (99 : Q). field. }
  assert (Hn : length (fst (normal 0 1 100 (seed 42))) = 100%nat).
  { now rewrite normal_deviates, length_map, deviates_length. }
  assert (Hs : length (Numpy.sadd 10 (Numpy.smul 2 (map np_sin
                 (Numpy.sdiv (Numpy.smul (2 * np_pi)
                    (Numpy.linspace 0 24 100)) 12)))) = 100%nat).
  { unfold Numpy.sadd, Numpy.smul, Numpy.sdiv.
    now rewrite !length_map, linspace_length. }
  split; [apply linspace_length|].
  split; [rewrite vadd_length; congruence|].
  split; [apply deviates_length|].
  split; [rewrite Hx by lia; reflexivity|].
  split; [rewrite Hx by lia; reflexivity|].
  split; [exact Hx|].
  split.
  - intros i Hi. rewrite !Hx by lia.
    rewrite Nat2Z.inj_succ. unfold Z.succ. rewrite inject_Z_plus.
    change (inject_Z 1) with 1.
    split; [field|].
    set (t := inject_Z (Z.of_nat i)).
    setoid_replace ((t + 1) * (24 / 99)) with (t * (24 / 99) + (8 # 33)) by field.
    lra.
  - intros i Hi.
    rewrite vadd_nth by (try congruence; rewrite Hs; assumption).
    rewrite normal_deviates.
    rewrite (nth_map_in (fun g => 0 + 1 * g) _ _ 0) by now rewrite deviates_length.
    f_equal.
    unfold Numpy.sadd, Numpy.smul, Numpy.sdiv.
    rewrite !(nth_map_in _ _ _ 0); try reflexivity;
      rewrite ?length_map, linspace_length; assumption.
Qed.

(** C7.  The arrays the generator returns do not depend on the state in
    which [np.random] is found: any two calls, in fresh processes or one
    after the other in the same process, return the same [(x, y)]. *)
Theorem generate_data_deterministic (s1 s2 : rng_state) :
  fst (generate_data s1) = fst (generate_data s2) /\
  fst (generate_data (snd (generate_data s1))) = fst (generate_data s1).
Proof.
  split; reflexivity.
Qed.

(** C9, as the code has it.  The generator takes no seed: it reseeds the
    process-wide generator with the constant 42 and draws its 100
    deviates from it.  What it returns is the same from every incoming
    state, and the state it leaves behind is always the one reached from
    seed 42 by 100 draws, not the state it found. *)
Theorem generate_data_reseeds (s : rng_state) :
  snd (generate_data s) = snd (normal 0 1 100 (seed 42)) /\
  fst (generate_data s) = fst (generate_data (seed 42)).
Proof.
  split; [|reflexivity].
  now rewrite generate_data_unfold.
Qed.

(** No generator with two different states is left as it was found by
    every call: the state after a call is the same whatever it was
    before. *)
Lemma generate_data_changes_some_state (s1 s2 : rng_state) :
  s1 <> s2 ->
  ~ (snd (generate_data s1) = s1 /\ snd (generate_data s2) = s2).
Proof.
  intros Hne [H1 H2]. apply Hne.
  rewrite <- H1, <- H2. reflexivity.
Qed.

End ScriptFacts.

(** ** Sorting on a key *)

Section SortOn.

Import Statsmodels.

Context {A : Type} (key : A -> Q).

Lemma insert_on_perm (a : A) (l : list A) :
  Permutation (insert_on key a l) (a :: l).
Proof.
  induction l as [|b l IH]; cbn; [reflexivity|].
  destruct (Qle_bool (key a) (key b)); [reflexivity|].
  rewrite IH. apply perm_swap.
Qed.

Lemma sort_on_perm (l : list A) : Permutation (sort_on key l) l.
Proof.
  induction l as [|a l IH]; cbn; [reflexivity|].
  rewrite insert_on_perm. now constructor.
Qed.

Lemma sort_on_length (l : list A) : length (sort_on key l) = length l.
Proof. apply Permutation_length, sort_on_perm. Qed.

Lemma Forall_insert_on (P : A -> Prop) (a : A) (l : list A) :
  P a -> Forall P l -> Forall P (insert_on key a l).
Proof.
  intros Ha Hl.
  apply (Permutation_Forall (Permutation_sym (insert_on_perm a l))).
  now constructor.
Qed.

Lemma Forall_sort_on (P : A -> Prop) (l : list A) :
  Forall P l -> Forall P (sort_on key l).
Proof.
  apply Permutation_Forall, Permutation_sym, sort_on_perm.
Qed.

Lemma insert_on_sorted (a : A) (l : list A) :
  StronglySorted (key_le key) l -> StronglySorted (key_le key) (insert_on key a l).
Proof.
  induction 1 as [|b l Hl IH Hb]; cbn.
  - repeat constructor.
  - destruct (Qle_bool (key a) (key b)) eqn:E.
    + apply Qle_bool_iff in E.
      constructor; [now constructor|].
      constructor; [exact E|].
      eapply Forall_impl; [|exact Hb].
      intros c Hc. unfold key_le in *. lra.
    + assert (Hlt : key b <= key a).
      { destruct (Qlt_le_dec (key b) (key a)) as [H|H]; [lra|].
        apply Qle_bool_iff in H. congruence. }
      constructor; [exact IH|].
      now apply Forall_insert_on.
Qed.

Lemma sort_on_sorted (l : list A) : StronglySorted (key_le key) (sort_on key l).
Proof.
  induction l as [|a l IH]; cbn; [constructor|].
  now apply insert_on_sorted.
Qed.

Lemma insert_on_strict (a : A) (l : list A) :
  Forall (fun b => ~ key a == key b) l ->
  StronglySorted (key_lt key) l -> StronglySorted (key_lt key) (insert_on key a l).
Proof.
  intros Hne Hs; induction Hs as [|b l Hl IH Hb]; cbn.
  - repeat constructor.
  - inversion Hne as [|? ? Hab Hne']; subst.
    destruct (Qle_bool (key a) (key b)) eqn:E.
    + apply Qle_bool_iff in E.
      assert (Hlt : key a < key b).
      { destruct (Qlt_le_dec (key a) (key b)) as [H|H]; [exact H|].
        exfalso. apply Hab. lra. }
      constructor; [now constructor|].
      constructor; [exact Hlt|].
      eapply Forall_impl; [|exact Hb].
      intros c Hc. unfold key_lt in *. lra.
    + assert (Hlt : key b < key a).
      { destruct (Qlt_le_dec (key b) (key a)) as [H|H]; [exact H|].
        apply Qle_bool_iff in H. congruence. }
      constructor; [now apply IH|].
      now apply Forall_insert_on.
Qed.

Lemma sort_on_strict (l : list A) :
  distinct (map key l) -> StronglySorted (key_lt key) (sort_on key l).
Proof.
  induction l as [|a l IH]; cbn; intros Hd; [constructor|].
  inversion Hd as [|? ? Ha Hl]; subst.
  apply insert_on_strict; [|now apply IH].
  apply Forall_sort_on.
  rewrite Forall_map in Ha. exact Ha.
Qed.

Lemma sort_on_sorted_id (l : list A) :
  StronglySorted (key_le key) l -> sort_on key l = l.
Proof.
  induction 1 as [|a l Hl IH Ha]; cbn; [reflexivity|].
  rewrite IH. destruct Ha as [|b l' Hab _]; cbn; [reflexivity|].
  apply Qle_bool_iff in Hab. now rewrite Hab.
Qed.

Lemma StronglySorted_of_map_key (R : Q -> Q -> Prop) (l : list A) :
  StronglySorted R (map key l) ->
  StronglySorted (fun u v => R (key u) (key v)) l.
Proof.
  induction l as [|a l IH]; cbn; intros H; [constructor|].
  inversion H as [|? ? Hl Ha]; subst.
  constructor; [now apply IH|]. now rewrite Forall_map in Ha.
Qed.

Lemma StronglySorted_map_key (R : Q -> Q -> Prop) (l : list A) :
  StronglySorted (fun u v => R (key u) (key v)) l ->
  StronglySorted R (map key l).
Proof.
  induction 1 as [|a l Hl IH Ha]; cbn; constructor; [exact IH|].
  now rewrite Forall_map.
Qed.

End SortOn.

(** ** The smoothed curve *)

Section Curve.

Import Statsmodels.

Lemma traverse_rows (g : Q * Q -> outcome Q) (l : array2) (c : array2) :
  traverse (fun p => yhat <- g p ;; Ok (fst p, yhat)) l = Ok c ->
  map fst c = map fst l /\
  Forall (fun r => exists p, In p l /\ fst r = fst p /\ g p = Ok (snd r)) c.
Proof.
  revert c; induction l as [|p l IH]; cbn; intros c H.
  - injection H as <-. now split.
  - destruct (g p) as [yhat|e] eqn:Eg; cbn in H; [|discriminate].
    destruct (traverse _ l) as [c'|e] eqn:Et; cbn in H; [|discriminate].
    injection H as <-.
    destruct (IH c' eq_refl) as [Hf Hr]. split.
    + cbn. now rewrite Hf.
    + constructor.
      * exists p. cbn. auto.
      * eapply Forall_impl; [|exact Hr].
        intros r (q & Hq & Hfq & Hg). exists q. auto.
Qed.

Lemma smooth_rows (pts : array2) (frac : Q) (curve : array2) :
  smooth pts frac = Ok curve ->
  map fst curve = map fst (sort_on fst pts) /\
  Forall (fun r => exists k, local_estimate k (sort_on fst pts) (fst r)
                             = Ok (snd r)) curve.
Proof.
  unfold smooth.
  destruct (negb _); [discriminate|].
  destruct (Qltb _ 2); [discriminate|].
  intros H. apply traverse_rows in H as [Hf Hr]. split; [exact Hf|].
  eapply Forall_impl; [|exact Hr].
  intros r (p & _ & Hp & Hg). rewrite Hp. eauto.
Qed.

Lemma map_fst_combine (x y : array) :
  length x = length y -> map fst (combine x y) = x.
Proof.
  revert y; induction x as [|u x IH]; intros [|v y] H; cbn in *;
    try discriminate; [reflexivity|].
  f_equal. apply IH. congruence.
Qed.

Lemma smoother_rows (x y : array) (frac : option Q) (curve : array2) :
  length x = length y ->
  smoother x y frac = Ok curve ->
  map fst curve = map fst (sort_on fst (combine x y)) /\
  Permutation (map fst curve) x.
Proof.
  intros Hlen H. unfold smoother, perform_lowess, lowess in H.
  apply smooth_rows in H as [Hf _]. split; [exact Hf|].
  rewrite Hf, (sort_on_perm fst). now rewrite map_fst_combine.
Qed.

(** C4.  A curve that the Smoother returns for a sample of N points has
    exactly N rows, one per input x: its x column is the input x
    rearranged, and it is the input x itself when that is in ascending
    order, as it is in a valid sample. *)
Theorem smoothed_curve_length (x y : array) (frac : option Q)
        (curve : array2) :
  length x = length y ->
  smoother x y frac = Ok curve ->
  length curve = length x /\
  Permutation (map fst curve) x /\
  (StronglySorted Qle x -> map fst curve = x).
Proof.
  intros Hlen H. destruct (smoother_rows x y frac curve Hlen H) as [Hf Hp].
  split; [|split; [exact Hp|]].
  - rewrite <- (length_map fst curve). now apply Permutation_length.
  - intros Hs. rewrite Hf, sort_on_sorted_id; [now apply map_fst_combine|].
    apply StronglySorted_of_map_key. now rewrite map_fst_combine.
Qed.

Lemma smoothed_curve_length_witness :
  exists curve,
    smoother [0; 1; 2; 3] [0; 1; 0; 0] (Some 1) = Ok curve /\
    length curve = 4%nat /\
    Permutation (map fst curve) [0; 1; 2; 3] /\
    (StronglySorted Qle [0; 1; 2; 3] -> map fst curve = [0; 1; 2; 3]).
Proof.
  eexists. split; [vm_compute; reflexivity|].
  apply (smoothed_curve_length [0; 1; 2; 3] [0; 1; 0; 0] (Some 1));
    [reflexivity | vm_compute; reflexivity].
Defined.

(** C5.  The rows of a curve that the Smoother returns for a sample of N
    points are the N input x, each once, in ascending order: the x column
    is a rearrangement of the input x that is non-decreasing always, and
    strictly increasing when the input x are pairwise distinct. *)
Theorem smoothed_curve_ascending (x y : array) (frac : option Q)
        (curve : array2) :
  length x = length y ->
  smoother x y frac = Ok curve ->
  length curve = length x /\
  Permutation (map fst curve) x /\
  StronglySorted Qle (map fst curve) /\
  (distinct x -> StronglySorted Qlt (map fst curve)).
Proof.
  intros Hlen H. destruct (smoother_rows x y frac curve Hlen H) as [Hf Hp].
  split; [|split; [exact Hp|]].
  - rewrite <- (length_map fst curve). now apply Permutation_length.
  - rewrite Hf. split.
    + apply StronglySorted_map_key, sort_on_sorted.
    + intros Hd. apply StronglySorted_map_key, sort_on_strict.
      now rewrite map_fst_combine.
Qed.

Lemma smoothed_curve_ascending_witness :
  exists curve,
    smoother [3; 1; 2; 0; 4] [7; 3; 5; 1; 9] (Some 0.8) = Ok curve /\
    length curve = 5%nat /\
    Permutation (map fst curve) [3; 1; 2; 0; 4] /\
    StronglySorted Qle (map fst curve) /\
    (distinct [3; 1; 2; 0; 4] -> StronglySorted Qlt (map fst curve)).
Proof.
  eexists. split; [vm_compute; reflexivity|].
  apply (smoothed_curve_ascending [3; 1; 2; 0; 4] [7; 3; 5; 1; 9] (Some 0.8));
    [reflexivity | vm_compute; reflexivity].
Defined.

End Curve.

(** ** Local fits on data that lie on a line *)

Section LineFit.

Import Statsmodels.

Lemma sumQ_cons {A : Type} (f : A -> Q) (a : A) (l : list A) :
  sumQ f (a :: l) = f a + sumQ f l.
Proof. reflexivity. Qed.

Lemma Forall_firstn {A : Type} (P : A -> Prop) (k : nat) (l : list A) :
  Forall P l -> Forall P (firstn k l).
Proof.
  intros H; revert k; induction H as [|a l Ha Hl IH]; intros [|k]; cbn;
    constructor; auto.
Qed.

Lemma tricube_nonneg (d : Q) : 0 <= tricube d.
Proof.
  unfold tricube.
  destruct (Qle_bool 0 d) eqn:E0; cbn; [|lra].
  destruct (Qle_bool d 1) eqn:E1; cbn; [|lra].
  apply Qle_bool_iff in E0, E1.
  assert (H : 0 <= 1 - d * d * d).
  { assert (d * d <= 1) by nra. nra. }
  repeat apply Qmult_le_0_compat; exact H.
Qed.

Lemma weighted_nonneg (x0 : Q) (nb : array2) :
  Forall (fun wp => 0 <= fst wp) (weighted x0 nb).
Proof.
  unfold weighted. rewrite Forall_map. apply Forall_forall.
  intros p _. apply tricube_nonneg.
Qed.

Lemma weighted_lies_on (a b x0 : Q) (nb : array2) :
  lies_on a b nb ->
  Forall (fun wp => py wp == a + b * px wp) (weighted x0 nb).
Proof.
  intros H. unfold weighted. rewrite Forall_map.
  eapply Forall_impl; [|exact H]. now intros p Hp.
Qed.

Lemma sum_wy (a b : Q) (wps : list (Q * (Q * Q))) :
  on_line_w a b wps ->
  sumQ (fun wp => fst wp * py wp) wps ==
  a * sumQ fst wps + b * sumQ (fun wp => fst wp * px wp) wps.
Proof.
  induction 1 as [|wp l Hwp Hl IH]; [unfold sumQ; cbn; ring|].
  rewrite !sumQ_cons, IH, Hwp. ring.
Qed.

Lemma sum_wxy (a b : Q) (wps : list (Q * (Q * Q))) :
  on_line_w a b wps ->
  sumQ (fun wp => fst wp * px wp * py wp) wps ==
  a * sumQ (fun wp => fst wp * px wp) wps
  + b * sumQ (fun wp => fst wp * px wp * px wp) wps.
Proof.
  induction 1 as [|wp l Hwp Hl IH]; [unfold sumQ; cbn; ring|].
  rewrite !sumQ_cons, IH, Hwp. ring.
Qed.

Lemma sum_w_nonneg (wps : list (Q * (Q * Q))) :
  nonneg_w wps -> 0 <= sumQ fst wps.
Proof.
  induction 1 as [|wp l Hwp Hl IH]; [unfold sumQ; cbn; lra|].
  rewrite sumQ_cons. lra.
Qed.

Lemma sum_w_zero (g : Q * (Q * Q) -> Q) (wps : list (Q * (Q * Q))) :
  nonneg_w wps ->
  sumQ fst wps == 0 -> sumQ (fun wp => fst wp * g wp) wps == 0.
Proof.
  induction 1 as [|wp l Hwp Hl IH]; [reflexivity|].
  rewrite !sumQ_cons. intros H0.
  pose proof (sum_w_nonneg l Hl) as Hs.
  assert (Hw : fst wp == 0) by lra.
  rewrite IH by lra. rewrite Hw. ring.
Qed.

(** The weighted least-squares line through points of a line is that
    line. *)
Lemma wls_fit_line (a b : Q) (wps : list (Q * (Q * Q)))
      (intercept slope : Q) :
  on_line_w a b wps -> nonneg_w wps ->
  wls_fit wps = Some (intercept, slope) ->
  intercept == a /\ slope == b.
Proof.
  intros Hline Hpos. unfold wls_fit.
  destruct (Qeq_bool (wls_det wps) 0) eqn:ED; [discriminate|].
  apply Qeq_bool_neq in ED.
  intros H; injection H as Hi Hs.
  assert (Hsw : ~ sumQ fst wps == 0).
  { intros H0. apply ED. unfold wls_det.
    rewrite (sum_w_zero px wps Hpos H0), H0. ring. }
  assert (Hslope : slope == b).
  { rewrite <- Hs. unfold wls_det in *.
    rewrite (sum_wy a b), (sum_wxy a b) by assumption. field. exact ED. }
  split; [|exact Hslope].
  rewrite <- Hi, Hs, Hslope, (sum_wy a b) by assumption. field. exact Hsw.
Qed.


Lemma Qsquare_nonneg (t : Q) : 0 <= t * t.
Proof.
  destruct (Qlt_le_dec t 0) as [H|H].
  - setoid_replace (t * t) with ((- t) * (- t)) by ring.
    apply Qmult_le_0_compat; lra.
  - now apply Qmult_le_0_compat.
Qed.

(** The weighted residuals of the fitted line are orthogonal to 1 and to
    x: the normal equations. *)
Lemma wls_fit_normal (wps : list (Q * (Q * Q))) (i s : Q) :
  nonneg_w wps ->
  wls_fit wps = Some (i, s) ->
  sumQ (fun wp => fst wp * (py wp - (i + s * px wp))) wps == 0 /\
  sumQ (fun wp => fst wp * px wp * (py wp - (i + s * px wp))) wps == 0.
Proof.
  intros Hpos. unfold wls_fit.
  destruct (Qeq_bool (wls_det wps) 0) eqn:ED; [discriminate|].
  apply Qeq_bool_neq in ED.
  intros H; injection H as Hi Hs.
  assert (Hsw : ~ sumQ fst wps == 0).
  { intros H0. apply ED. unfold wls_det.
    rewrite (sum_w_zero px wps Hpos H0), H0. ring. }
  assert (L1 : forall u v,
             sumQ (fun wp => fst wp * (py wp - (u + v * px wp))) wps ==
             sumQ (fun wp => fst wp * py wp) wps - u * sumQ fst wps
             - v * sumQ (fun wp => fst wp * px wp) wps).
  { intros u v. clear. induction wps as [|wp l IH];
      [unfold sumQ; cbn; ring|].
    rewrite !sumQ_cons, IH. ring. }
  assert (L2 : forall u v,
             sumQ (fun wp => fst wp * px wp * (py wp - (u + v * px wp))) wps ==
             sumQ (fun wp => fst wp * px wp * py wp) wps
             - u * sumQ (fun wp => fst wp * px wp) wps
             - v * sumQ (fun wp => fst wp * px wp * px wp) wps).
  { intros u v. clear. induction wps as [|wp l IH];
      [unfold sumQ; cbn; ring|].
    rewrite !sumQ_cons, IH. ring. }
  rewrite L1, L2, <- Hi, <- Hs. unfold wls_det in *.
  split; field; auto.
Qed.

(** Step 3 is a least-squares fit: no line has a smaller weighted sum of
    squared residuals than the fitted one. *)
Lemma wls_fit_least_squares (wps : list (Q * (Q * Q))) (i s a b : Q) :
  nonneg_w wps ->
  wls_fit wps = Some (i, s) ->
  wsse i s wps <= wsse a b wps.
Proof.
  intros Hpos Hfit.
  destruct (wls_fit_normal wps i s Hpos Hfit) as [N1 N2].
  assert (E : wsse a b wps ==
              wsse i s wps
              + sumQ (fun wp => fst wp * (((i - a) + (s - b) * px wp)
                                          * ((i - a) + (s - b) * px wp))) wps
              + 2 * (i - a)
                * sumQ (fun wp => fst wp * (py wp - (i + s * px wp))) wps
              + 2 * (s - b)
                * sumQ (fun wp => fst wp * px wp * (py wp - (i + s * px wp))) wps).
  { clear. unfold wsse. induction wps as [|wp l IH];
      [unfold sumQ; cbn; ring|].
    rewrite !sumQ_cons, IH. ring. }
  assert (P : 0 <= sumQ (fun wp => fst wp * (((i - a) + (s - b) * px wp)
                                          * ((i - a) + (s - b) * px wp))) wps).
  { clear - Hpos. induction Hpos as [|wp l Hwp Hl IH];
      [unfold sumQ; cbn; lra|].
    rewrite sumQ_cons.
    assert (0 <= fst wp * (((i - a) + (s - b) * px wp)
                           * ((i - a) + (s - b) * px wp))); [|lra].
    apply Qmult_le_0_compat; [exact Hwp | apply Qsquare_nonneg]. }
  rewrite E, N1, N2. lra.
Qed.

Lemma local_estimate_line (a b : Q) (k : nat) (pts : array2) (x0 yhat : Q) :
  lies_on a b pts ->
  local_estimate k pts x0 = Ok yhat ->
  yhat == a + b * x0.
Proof.
  intros Hl. unfold local_estimate.
  destruct (wls_fit _) as [[i s]|] eqn:E; [|discriminate].
  intros H; injection H as <-.
  apply (wls_fit_line a b) in E as [Hi Hs].
  - now rewrite Hi, Hs.
  - apply weighted_lies_on. unfold neighborhood.
    now apply Forall_firstn, Forall_sort_on.
  - apply weighted_nonneg.
Qed.

(** C8, as the model has it.  When the points of the sample lie on one
    straight line [y = a + b * x], every curve the Smoother returns lies
    on that same line, with [frac = 1.0] as with any other [frac]. *)
Theorem smoother_reproduces_line (a b : Q) (x y : array) (frac : option Q)
        (curve : array2) :
  lies_on a b (combine x y) ->
  smoother x y frac = Ok curve ->
  lies_on a b curve.
Proof.
  intros Hl H. unfold smoother, perform_lowess, lowess in H.
  apply smooth_rows in H as [_ Hr].
  eapply Forall_impl; [|exact Hr].
  intros r [k Hk]. cbv beta.
  eapply local_estimate_line; [|exact Hk].
  now apply Forall_sort_on.
Qed.

Lemma smoother_reproduces_line_witness :
  exists curve,
    smoother [0; 1; 2; 3; 4] [1; 3; 5; 7; 9] (Some 1) = Ok curve /\
    lies_on 1 2 curve.
Proof.
  eexists. split; [vm_compute; reflexivity|].
  apply (smoother_reproduces_line 1 2 [0; 1; 2; 3; 4] [1; 3; 5; 7; 9] (Some 1)).
  - repeat constructor; vm_compute; reflexivity.
  - vm_compute; reflexivity.
Defined.

(** C8, as the specification has it, fails: with [frac = 1.0] the five
    points (0,0), (1,3), (2,0), (3,3), (4,0) are smoothed to a curve that
    is further than 1/10 from every straight line. *)
Lemma frac_one_is_not_a_line :
  exists curve,
    smoother [0; 1; 2; 3; 4] [0; 3; 0; 3; 0] (Some 1) = Ok curve /\
    forall a b, ~ on_line (1 # 10) a b curve.
Proof.
  eexists. split; [vm_compute; reflexivity|].
  intros a b H. unfold on_line in H.
  inversion_clear H as [|? ? H0 H']. inversion_clear H' as [|? ? _ H''].
  inversion_clear H'' as [|? ? H2 H']. inversion_clear H' as [|? ? _ H''].
  inversion_clear H'' as [|? ? H4 _].
  apply Qabs_Qle_condition in H0, H2, H4.
  cbn [fst snd] in *. lra.
Qed.

End LineFit.

(** C9, as the specification has it, fails: with the stand-in generator and
    the process-wide state at 7, a call leaves another state behind. *)
Lemma generate_data_overwrites_rng : ~ leaves_rng_unchanged.
Proof.
  intros H.
  specialize (H Lcg.lib 7%Z).
  vm_compute in H. discriminate H.
Qed.

(** ** Runs of the script *)

Section Runs.

Context {np : NumpyLib} {sm : SmoothingLib}.

(** A run of [main], effect by effect. *)
Lemma main_run (w : world) :
  main w =
  match lowess (snd (fst (generate_data (rng w))))
               (fst (fst (generate_data (rng w)))) 0.2 with
  | Ok smoothed =>
      ({| rng := snd (generate_data (rng w));
          stdout := (stdout w ++ narration)%list;
          shown := (shown w ++
                    [plot_results (fst (fst (generate_data (rng w))))
                                  (snd (fst (generate_data (rng w))))
                                  smoothed])%list |}, Ok tt)
  | Raise e =>
      ({| rng := snd (generate_data (rng w));
          stdout := (stdout w ++ narration)%list;
          shown := shown w |}, Raise e)
  end.
Proof.
  unfold main. rewrite fold_print. cbn [rng stdout shown].
  destruct (generate_data (rng w)) as [[x y] s].
  cbn [fst snd]. unfold perform_lowess.
  now destruct (lowess y x 0.2).
Qed.

Lemma combine_columns (c : array2) :
  combine (map fst c) (map snd c) = c.
Proof.
  induction c as [|[u v] c IH]; cbn; [reflexivity|]. now rewrite IH.
Qed.

Lemma generate_data_lengths (s : rng_state) :
  length (fst (fst (generate_data s))) = 100%nat /\
  length (snd (fst (generate_data s))) = 100%nat.
Proof.
  rewrite generate_data_unfold. cbn [fst snd].
  split; [apply linspace_length|].
  rewrite vadd_length.
  - unfold Numpy.sadd, Numpy.smul, Numpy.sdiv.
    now rewrite !length_map, linspace_length.
  - unfold Numpy.sadd, Numpy.smul, Numpy.sdiv.
    now rewrite !length_map, linspace_length, normal_deviates, length_map,
      deviates_length.
Qed.

(** X1.  Whatever the libraries do and whether the run returns or raises,
    [main] leaves on the console what was there before followed by the
    four lines of the narration, in their order: the narration is printed
    before anything is computed. *)
Theorem main_prints_narration (w : world) :
  stdout (fst (main w)) = (stdout w ++ narration)%list /\
  length (stdout (fst (main w))) = (length (stdout w) + 4)%nat.
Proof.
  assert (H : stdout (fst (main w)) = (stdout w ++ narration)%list).
  { rewrite main_run. now destruct (lowess _ _ 0.2). }
  split; [exact H|]. now rewrite H, length_app.
Qed.

(** X2.  When the smoothing routine raises on the generated sample, [main]
    raises the same error and shows no figure, but the run is not without
    effect: the narration is already on the console and the process-wide
    generator has been reseeded and drawn from. *)
Theorem main_failure_is_partial (w : world) (e : error) :
  lowess (snd (fst (generate_data (rng w))))
         (fst (fst (generate_data (rng w)))) 0.2 = Raise e ->
  snd (main w) = Raise e /\
  shown (fst (main w)) = shown w /\
  stdout (fst (main w)) = (stdout w ++ narration)%list /\
  rng (fst (main w)) = snd (normal 0 1 100 (seed 42)).
Proof.
  intros H. rewrite main_run, H. cbn [fst snd rng stdout shown].
  repeat split. now rewrite generate_data_unfold.
Qed.

(** X3.  When the smoothing routine returns a curve for the generated
    sample, [main] returns and shows exactly one new figure, after those
    already shown: its scatter is the generated sample, 100 points, and the
    two columns of its line put side by side are the curve, row for row. *)
Theorem main_shows_one_figure (w : world) (curve : array2) :
  lowess (snd (fst (generate_data (rng w))))
         (fst (fst (generate_data (rng w)))) 0.2 = Ok curve ->
  snd (main w) = Ok tt /\
  exists f,
    shown (fst (main w)) = (shown w ++ [f])%list /\
    (scatter_x f, scatter_y f) = fst (generate_data (rng w)) /\
    length (scatter_x f) = 100%nat /\ length (scatter_y f) = 100%nat /\
    combine (line_x f) (line_y f) = curve /\
    length (line_x f) = length curve /\ length (line_y f) = length curve.
Proof.
  intros H. rewrite main_run, H. cbn [fst snd shown].
  split; [reflexivity|]. eexists. split; [reflexivity|].
  cbn [scatter_x scatter_y line_x line_y plot_results].
  destruct (generate_data_lengths (rng w)) as [Hx Hy].
  repeat split; auto using combine_columns, length_map.
  now destruct (generate_data (rng w)) as [[x y] s].
Qed.

(** X4.  Two runs in a row in one process repeat each other: the second
    run has the outcome of the first, prints the narration a second time,
    leaves the generator where the first left it, and shows again the
    figure that the first showed (or none, if the first showed none). *)
Theorem main_twice (w : world) :
  snd (main (fst (main w))) = snd (main w) /\
  stdout (fst (main (fst (main w)))) =
    (stdout w ++ narration ++ narration)%list /\
  rng (fst (main (fst (main w)))) = rng (fst (main w)) /\
  (forall f, shown (fst (main w)) = (shown w ++ [f])%list ->
             shown (fst (main (fst (main w)))) = (shown w ++ [f; f])%list) /\
  (shown (fst (main w)) = shown w ->
   shown (fst (main (fst (main w)))) = shown w).
Proof.
  rewrite (main_run (fst (main w))). rewrite (main_run w).
  change (generate_data (rng (fst _))) with (generate_data (rng w)).
  destruct (lowess _ _ 0.2) as [c|e]; cbn [fst snd rng stdout shown].
  - repeat split; try reflexivity.
    + now rewrite <- app_assoc.
    + intros f Hf. apply app_inv_head in Hf. injection Hf as <-.
      now rewrite <- app_assoc.
    + intros Hf. exfalso.
      apply (f_equal (@length figure)) in Hf.
      rewrite length_app in Hf. cbn in Hf. lia.
  - repeat split; try reflexivity.
    + now rewrite <- app_assoc.
    + intros f Hf. exfalso.
      apply (f_equal (@length figure)) in Hf.
      rewrite length_app in Hf. cbn in Hf. lia.
Qed.

(** X6.  Every x of the generated sample is a month between 0 and 24,
    both included. *)
Theorem generate_data_x_range (s : rng_state) :
  Forall (fun v => 0 <= v <= 24) (fst (fst (generate_data s))).
Proof.
  rewrite generate_data_unfold. cbn [fst]. unfold Numpy.linspace.
  rewrite Forall_map. apply Forall_forall. intros i Hi.
  apply in_seq in Hi. change (inject_Z (Z.of_nat (100 - 1))) with (99 : Q).
  assert (H0 : 0 <= inject_Z (Z.of_nat i)).
  { change 0 with (inject_Z 0). rewrite <- Zle_Qle. lia. }
  assert (H1 : inject_Z (Z.of_nat i) <= 99).
  { change 99 with (inject_Z 99). rewrite <- Zle_Qle. lia. }
  set (t := inject_Z (Z.of_nat i)) in *.
  setoid_replace (0 + t * ((24 - 0) / 99)) with (t * (8 # 33)) by field.
  lra.
Qed.

(** X7.  With a [np.sin] that stays within [-1, 1], every y of the
    generated sample is within 2 of the level 10 once its noise is taken
    off: between 8 and 12 plus the deviate drawn for it. *)
Theorem generate_data_signal_band (s : rng_state) (i : nat) :
  (forall t, -1 <= np_sin t <= 1) ->
  (i < 100)%nat ->
  let y := snd (fst (generate_data s)) in
  let noise := 0 + 1 * nth i (deviates 100 (seed 42)) 0 in
  8 + noise <= nth i y 0 <= 12 + noise.
Proof.
  intros Hsin Hi. cbv zeta.
  rewrite generate_data_unfold. cbn [fst snd].
  assert (Hs : length (Numpy.sadd 10 (Numpy.smul 2 (map np_sin
                 (Numpy.sdiv (Numpy.smul (2 * np_pi)
                    (Numpy.linspace 0 24 100)) 12)))) = 100%nat).
  { unfold Numpy.sadd, Numpy.smul, Numpy.sdiv.
    now rewrite !length_map, linspace_length. }
  assert (Hn : length (fst (normal 0 1 100 (seed 42))) = 100%nat).
  { now rewrite normal_deviates, length_map, deviates_length. }
  rewrite vadd_nth by (try congruence; rewrite Hs; assumption).
  rewrite normal_deviates.
  rewrite (nth_map_in (fun g => 0 + 1 * g) _ _ 0) by now rewrite deviates_length.
  unfold Numpy.sadd, Numpy.smul.
  rewrite (nth_map_in (Qplus 10) _ _ 0) by now rewrite !length_map in *.
  rewrite (nth_map_in (Qmult 2) _ _ 0) by now rewrite !length_map in *.
  rewrite (nth_map_in np_sin _ _ 0)
    by (unfold Numpy.sdiv; now rewrite !length_map, linspace_length).
  match goal with |- context [np_sin ?t] => specialize (Hsin t) end.
  lra.
Qed.

(** X8.  A run does not look at the world it starts in: there are one
    outcome, one generator state and one list of at most one figure such
    that, from every world, [main] ends with that outcome and that state,
    having appended the narration to the console and that list to the
    figures shown. *)
Theorem main_is_reproducible :
  exists (o : outcome unit) (s : rng_state) (figs : list figure),
    (length figs <= 1)%nat /\
    (o = Ok tt <-> length figs = 1%nat) /\
    forall w : world,
      main w =
      ({| rng := s; stdout := (stdout w ++ narration)%list;
          shown := (shown w ++ figs)%list |}, o).
Proof.
  destruct (lowess (snd (fst (generate_data (seed 42))))
                   (fst (fst (generate_data (seed 42)))) 0.2)
    as [c|e] eqn:E.
  - exists (Ok tt), (snd (generate_data (seed 42))),
      [plot_results (fst (fst (generate_data (seed 42))))
                    (snd (fst (generate_data (seed 42)))) c].
    split; [cbn; lia|]. split; [now split|].
    intros w. rewrite main_run.
    change (generate_data (rng w)) with (generate_data (seed 42)).
    now rewrite E.
  - exists (Raise e), (snd (generate_data (seed 42))), [].
    split; [cbn; lia|]. split; [split; discriminate|].
    intros w. rewrite main_run.
    change (generate_data (rng w)) with (generate_data (seed 42)).
    rewrite E. now rewrite app_nil_r.
Qed.

End Runs.

Lemma main_failure_is_partial_witness :
  snd (main (sm := Standin.rejecting) Standin.fresh) = Raise ParameterError /\
  shown (fst (main (sm := Standin.rejecting) Standin.fresh)) = [] /\
  stdout (fst (main (sm := Standin.rejecting) Standin.fresh)) =
    ([] ++ narration)%list /\
  rng (fst (main (sm := Standin.rejecting) Standin.fresh)) =
    snd (normal (np := Lcg.lib) 0 1 100 (seed 42)).
Proof.
  apply (main_failure_is_partial (sm := Standin.rejecting) Standin.fresh
           ParameterError).
  reflexivity.
Defined.

Lemma main_shows_one_figure_witness :
  exists curve,
    lowess (SmoothingLib := Standin.echoing)
      (snd (fst (generate_data (rng Standin.fresh))))
      (fst (fst (generate_data (rng Standin.fresh)))) 0.2 = Ok curve /\
    snd (main (sm := Standin.echoing) Standin.fresh) = Ok tt /\
    exists f,
      shown (fst (main (sm := Standin.echoing) Standin.fresh)) =
        ([] ++ [f])%list /\
      (scatter_x f, scatter_y f) = fst (generate_data (rng Standin.fresh)) /\
      length (scatter_x f) = 100%nat /\ length (scatter_y f) = 100%nat /\
      combine (line_x f) (line_y f) = curve /\
      length (line_x f) = length curve /\ length (line_y f) = length curve.
Proof.
  eexists. split; [reflexivity|].
  apply (main_shows_one_figure (sm := Standin.echoing) Standin.fresh).
  reflexivity.
Defined.

Lemma generate_data_signal_band_witness :
  let y := snd (fst (generate_data (np := Standin.flat) 7%Z)) in
  let noise := 0 + 1 * nth 3 (deviates (np := Standin.flat) 100 (seed 42)) 0 in
  8 + noise <= nth 3 y 0 <= 12 + noise.
Proof.
  apply (generate_data_signal_band (np := Standin.flat) 7%Z 3).
  - intros t. cbn. lra.
  - lia.
Defined.
